(** * Fast-Log: deferred-formatting logger (logger.h)

    A shallow embedding of namespace [Logger::Detail] and of the [LOG]
    macro.  The embedding follows the header function by function:

    - [CountPlaceholders], [sizeof_args]      (lines 24-32)
    - [GetArgSize], [GetArgsSize]             (lines 37-56)
    - [CopyArg], [CopyArgs]                   (lines 61-91)
    - [FormatArg], [FormatArgs]               (lines 96-131)
    - [Header], [WriteLog]                    (lines 142-171)
    - [LOG]                                   (lines 177-181)

    Machine model (LP64): [size_t] is 64 bits wide, [unsigned] and [int]
    are 32 bits wide, a pointer occupies 8 bytes.  Unsigned arithmetic is
    written with its wrap-around.  Undefined behaviour of the C++ program
    (a read or write outside the region, a null placeholder pointer) is
    the result [None]. *)

From Stdlib Require Import Strings.Byte Strings.String DecimalString.
From Stdlib Require Import List ZArith Lia Bool PeanoNat.
From coqutil Require Import Byte Word.LittleEndianList.
Import ListNotations.
Local Open Scope Z_scope.

(** ** Integer types *)

(** Conversion to [size_t]: reduction modulo 2^64. *)
Definition size_t (z : Z) : Z := z mod 2 ^ 64.

(** Conversion to [unsigned]: reduction modulo 2^32. *)
Definition unsigned (z : Z) : Z := z mod 2 ^ 32.

(** Conversion to [int]: the low 32 bits, read in two's complement. *)
Definition int (z : Z) : Z := (z + 2 ^ 31) mod 2 ^ 32 - 2 ^ 31.

(** ** Characters and C strings *)

Definition NUL : byte := x00.
Definition PERCENT : byte := "%"%byte.
Definition LF : byte := x0a.

(** A [cstring] is a pointer to a NUL-terminated [char] array.  The list
    holds the bytes of the array in front of its last element, which is
    always NUL; the empty list is a pointer to that final NUL.  Advancing
    the pointer by [n] is [skipn n].  Bytes equal to NUL inside the list
    are embedded terminators: the text ends at the first of them. *)
Definition cstring := list byte.

(** Write a literal the way the source does. *)
Definition lit (s : string) : cstring := list_byte_of_string s.

Module libc.

(** [std::strlen]: the number of bytes in front of the first NUL. *)
Fixpoint strlen (s : cstring) : nat :=
  match s with
  | [] => 0%nat
  | c :: rest => if Byte.eqb c NUL then 0%nat else S (strlen rest)
  end.

(** [std::strstr(haystack, needle)] for a needle of one character, the
    only use the header makes of it: the offset of the first [c] in
    front of the terminator, [None] for the null pointer. *)
Fixpoint strstr (haystack : cstring) (c : byte) : option nat :=
  match haystack with
  | [] => None
  | h :: rest =>
      if Byte.eqb h NUL then None
      else if Byte.eqb h c then Some 0%nat
      else option_map S (strstr rest c)
  end.

End libc.

(** The text of a C string: the bytes in front of its first NUL. *)
Fixpoint text (s : cstring) : list byte :=
  match s with
  | [] => []
  | c :: rest => if Byte.eqb c NUL then [] else c :: text rest
  end.

(** ** Output streams

    A [std::ostream] is the sequence of bytes written to it so far. *)
Definition ostream := list byte.

(** [s.write(p, n)] *)
Definition ostream_write (s : ostream) (p : list byte) (n : nat) : ostream :=
  s ++ firstn n p.

(** [s << p] for [const char* p] *)
Definition ostream_put_cstr (s : ostream) (p : cstring) : ostream :=
  ostream_write s p (libc.strlen p).

(** [s << std::endl] *)
Definition ostream_endl (s : ostream) : ostream := s ++ [LF].

(** ** Argument classes

    A trivially-copyable type is given by its size and by what
    [operator<<] prints for an object with a given object representation. *)
Record TrivType : Type := {
  sizeof : nat;
  print : list byte -> list byte
}.

(** The type list [Args...] a formatter is instantiated with.
    [T_char_array N] is [char[N]]: [WriteLog] takes its arguments as
    [const Args&...], so a char array or a string literal is deduced with
    its array type. *)
Inductive ArgType : Type :=
| T_trivial (T : TrivType)
| T_char_ptr
| T_std_string
| T_char_array (N : nat).

(** An argument of a log call: a trivially-copyable object given by its
    object representation, a [const char*] variable, a [std::string] given
    by its contents (which, unlike C text, may hold NUL bytes), or an
    array of [char] given by all its elements (a string literal is such
    an array: its text and the terminator).  For an array the overloads
    of [GetArgSize] and [CopyArg] chosen are the [const char*] ones (the
    array decays), while the formatter is instantiated with the array
    type. *)
Inductive Arg : Type :=
| Trivial (T : TrivType) (repr : list byte)
| CharPtr (str : cstring)
| StdString (s : list byte)
| CharArray (arr : list byte).

(** The type [WriteLog] deduces for an argument. *)
Definition type_of (a : Arg) : ArgType :=
  match a with
  | Trivial T _ => T_trivial T
  | CharPtr _ => T_char_ptr
  | StdString _ => T_std_string
  | CharArray arr => T_char_array (length arr)
  end.

(** The string literal ["..."] as an argument: the array of its
    characters and the terminator. *)
Definition Literal (s : string) : Arg := CharArray (lit s ++ [NUL]).

(** [s.c_str()]: the contents followed by the terminator the string owns. *)
Definition c_str (s : list byte) : cstring := s.

(** ** The log region

    A cell of the region holds a plain byte or one byte of a stored
    pointer.  A stored pointer keeps what it points to: a format string, or
    the instantiation [FormatArgs<Args...>] named by its type list. *)
Inductive pointer : Type :=
| PString (s : cstring)
| PFormatter (Args : list ArgType).

Inductive cell : Type :=
| Raw (b : byte)
| Frag (p : pointer) (k : nat).

(** Write [cs] at offset [pos]; [None] when the write leaves the region. *)
Definition store (mem : list cell) (pos : nat) (cs : list cell) : option (list cell) :=
  if (pos + length cs <=? length mem)%nat
  then Some (firstn pos mem ++ cs ++ skipn (pos + length cs) mem)
  else None.

(** Read [n] plain bytes at the front of [cs]. *)
Fixpoint load_front (cs : list cell) (n : nat) {struct n} : option (list byte) :=
  match n with
  | O => Some []
  | S n' =>
      match cs with
      | Raw b :: rest => option_map (cons b) (load_front rest n')
      | _ => None
      end
  end.

(** Read [n] plain bytes at offset [pos]. *)
Definition load (mem : list cell) (pos n : nat) : option (list byte) :=
  load_front (skipn pos mem) n.

(** [std::strlen] on the region: the distance to the first NUL byte. *)
Fixpoint strlen_front (cs : list cell) : option nat :=
  match cs with
  | Raw b :: rest => if Byte.eqb b NUL then Some 0%nat else option_map S (strlen_front rest)
  | _ => None
  end.

Definition strlen_at (mem : list cell) (pos : nat) : option nat :=
  strlen_front (skipn pos mem).

(** [std::strcpy(dst, src)]: the text of [src] and its terminator. *)
Definition strcpy (mem : list cell) (dst : nat) (src : cstring) : option (list cell) :=
  store mem dst (map Raw (text src ++ [NUL])).

(** The eight cells of a stored [size_t], little-endian. *)
Definition size_t_cells (z : Z) : list cell := map Raw (le_split 8 z).

(** The eight cells of a stored pointer. *)
Definition pointer_cells (p : pointer) : list cell := map (Frag p) (seq 0 8).

Module Logger.
Module Detail.

(** [sizeof_args(args...)]: [sizeof...(Types)] as an [unsigned]. *)
Definition sizeof_args {A : Type} (args : list A) : Z :=
  unsigned (Z.of_nat (length args)).

(** [CountPlaceholders(formatString)] *)
Fixpoint CountPlaceholders (formatString : cstring) : Z :=
  match formatString with
  | [] => 0
  | c :: rest =>
      if Byte.eqb c NUL then 0
      else size_t ((if Byte.eqb c PERCENT then 1 else 0) + CountPlaceholders rest)
  end.

(** *** GetArgsSize *)

(** The three overloads of [GetArgSize]; a char array is passed to the
    [const char*] one. *)
Definition GetArgSize (arg : Arg) : Z :=
  match arg with
  | Trivial T _ => size_t (Z.of_nat (sizeof T))
  | CharPtr str => size_t (size_t (Z.of_nat (libc.strlen str)) + 1)
  | StdString s => size_t (size_t (Z.of_nat (length s)) + 1)
  | CharArray arr => size_t (size_t (Z.of_nat (libc.strlen arr)) + 1)
  end.

Fixpoint GetArgsSize (args : list Arg) : Z :=
  match args with
  | [] => 0
  | arg :: args' => size_t (GetArgSize arg + GetArgsSize args')
  end.

(** *** CopyArgs *)

(** [CopyArg(char* argsData, const char* str)] *)
Definition CopyArg_cstr (mem : list cell) (argsData : nat) (str : cstring)
  : option (list cell * nat) :=
  match strcpy mem argsData str with
  | Some mem' => Some (mem', (argsData + libc.strlen str + 1)%nat)
  | None => None
  end.

(** The three overloads of [CopyArg]: the region after the write and the
    returned cursor.  A char array is passed to the [const char*] one. *)
Definition CopyArg (mem : list cell) (argsData : nat) (arg : Arg)
  : option (list cell * nat) :=
  match arg with
  | Trivial T repr =>
      match store mem argsData (map Raw repr) with
      | Some mem' => Some (mem', (argsData + sizeof T)%nat)
      | None => None
      end
  | CharPtr str => CopyArg_cstr mem argsData str
  | StdString s => CopyArg_cstr mem argsData (c_str s)
  | CharArray arr => CopyArg_cstr mem argsData arr
  end.

Fixpoint CopyArgs (mem : list cell) (argsData : nat) (args : list Arg)
  : option (list cell * nat) :=
  match args with
  | [] => Some (mem, argsData)
  | arg :: args' =>
      match CopyArg mem argsData arg with
      | Some (mem', argsData') => CopyArgs mem' argsData' args'
      | None => None
      end
  end.

(** *** Formatting *)

(** [FormatArg<const char*>] *)
Definition FormatArg_cstr (outputStream : ostream) (mem : list cell) (argsData : nat)
  : option (ostream * nat) :=
  match strlen_at mem argsData with
  | Some l =>
      match load mem argsData l with
      | Some bytes => Some (outputStream ++ bytes, (argsData + l + 1)%nat)
      | None => None
      end
  | None => None
  end.

(** The primary template [FormatArg<Arg>] at [Arg = char[N]]: [*arg] is
    an array of [char], which [operator<<] prints as the C string at the
    cursor; the cursor moves by [sizeof(char[N])]. *)
Definition FormatArg_array (N : nat) (outputStream : ostream) (mem : list cell)
           (argsData : nat) : option (ostream * nat) :=
  match strlen_at mem argsData with
  | Some l =>
      match load mem argsData l with
      | Some bytes => Some (outputStream ++ bytes, (argsData + N)%nat)
      | None => None
      end
  | None => None
  end.

(** [FormatArg<Arg>]: the primary template and its two specializations.
    The result is the stream after the write and the returned cursor. *)
Definition FormatArg (A : ArgType) (outputStream : ostream) (mem : list cell)
           (argsData : nat) : option (ostream * nat) :=
  match A with
  | T_trivial T =>
      match load mem argsData (sizeof T) with
      | Some repr => Some (outputStream ++ print T repr, (argsData + sizeof T)%nat)
      | None => None
      end
  | T_char_ptr => FormatArg_cstr outputStream mem argsData
  | T_std_string => FormatArg_cstr outputStream mem argsData
  | T_char_array N => FormatArg_array N outputStream mem argsData
  end.

(** [FormatArgs<Args...>(s, format, buffer)]: the terminator overload for
    the empty pack and the recursive one. *)
Fixpoint FormatArgs (Args : list ArgType) (s : ostream) (format : cstring)
         (mem : list cell) (buffer : nat) : option ostream :=
  match Args with
  | [] => Some (ostream_endl (ostream_put_cstr s format))
  | A :: Args' =>
      match libc.strstr format PERCENT with
      | None => None
      | Some placeholder =>
          let s1 := ostream_write s format placeholder in
          match FormatArg A s1 mem buffer with
          | Some (s2, buffer') =>
              FormatArgs Args' s2 (skipn (placeholder + 1) format) mem buffer'
          | None => None
          end
      end
  end.

(** The cursor the chain of [FormatArg] calls inside [FormatArgs] ends
    at (the stream is not looked at). *)
Fixpoint decode_cursor (Args : list ArgType) (mem : list cell) (buffer : nat)
  : option nat :=
  match Args with
  | [] => Some buffer
  | A :: Args' =>
      match FormatArg A [] mem buffer with
      | Some (_, buffer') => decode_cursor Args' mem buffer'
      | None => None
      end
  end.

(** *** Header and WriteLog *)

(** [struct Header].  The [FormatFunction] pointer in [Formatter] is
    given by the type list of the instantiation [FormatArgs<Args...>] it
    points to; calling it is [FormatArgs Args]. *)
Record Header : Type := {
  ArgsSize : Z;
  FormatString : cstring;
  Formatter : list ArgType
}.

(** [sizeof(Header)]: three 8-byte fields. *)
Definition sizeof_Header : nat := 24.

(** The three assignments through [header]. *)
Definition store_Header (data : list cell) (h : Header) : option (list cell) :=
  match store data 0 (size_t_cells (ArgsSize h)) with
  | Some d1 =>
      match store d1 8 (pointer_cells (PString (FormatString h))) with
      | Some d2 => store d2 16 (pointer_cells (PFormatter (Formatter h)))
      | None => None
      end
  | None => None
  end.

(** How a call of [WriteLog] ends.  The [assert] is compiled in (a build
    without [NDEBUG]). *)
Inductive outcome : Type :=
| Written (data : list cell)   (* returned; the region as it was left *)
| AssertionFailed (data : list cell)   (* [assert] aborted; the region then *)
| Undefined.                   (* the call left the region it was given *)

Section WriteLog.

(** [GetWriteBuffer(int size)] is declared in the header and defined
    elsewhere: it is a parameter here. *)
Variable GetWriteBuffer : Z -> list cell.

(** The body of [WriteLog<Args...>], run on the arguments.  The template
    has an instantiation for a non-empty pack only: for the empty one
    [GetArgsSize<Args...>(args...)] is [GetArgsSize<>()], which names no
    function, so no program calls it without arguments (see [LOG]). *)
Definition WriteLog (formatString : cstring) (args : list Arg) : outcome :=
  let argsSize := GetArgsSize args in
  let data := GetWriteBuffer (int (size_t (argsSize + Z.of_nat sizeof_Header))) in
  let argsBuffer := sizeof_Header in
  match store_Header data
          {| ArgsSize := argsSize;
             FormatString := formatString;
             Formatter := map type_of args |} with
  | None => Undefined
  | Some data1 =>
      match CopyArgs data1 argsBuffer args with
      | None => Undefined
      | Some (data2, end_) =>
          if size_t (Z.of_nat end_ - Z.of_nat argsBuffer) =? argsSize
          then Written data2
          else AssertionFailed data2
      end
  end.

(** An argument expression of a [LOG] line, as far as the build looks at
    it: its type, and whether it may stand inside a constant expression
    (the macro repeats the arguments inside its [static_assert], in the
    call [sizeof_args(__VA_ARGS__)]). *)
Record ArgExpr : Type := {
  expr_type : ArgType;
  constant_ok : bool
}.

(** Why a [LOG] line does not build. *)
Inductive build_error : Type :=
| NonConstantCondition                 (* the [static_assert] condition is no constant *)
| StaticAssertFailed (message : string)
| NoMatchingFunction.                  (* [GetArgsSize<>()] inside [WriteLog<>] *)

(** What a [LOG(formatString, ...)] line is turned into by the
    compiler: a build failure, or the code run at the call site. *)
Inductive build : Type :=
| BuildFailure (e : build_error)
| Built (run : list Arg -> outcome).

(** The [LOG] macro at a call site with the given argument expressions:
    the [static_assert], then the call of [WriteLog], which has no
    instantiation without arguments. *)
Definition LOG (formatString : cstring) (exprs : list ArgExpr) : build :=
  if negb (forallb constant_ok exprs) then BuildFailure NonConstantCondition
  else if negb (CountPlaceholders formatString =? sizeof_args exprs)
  then BuildFailure (StaticAssertFailed "Number of arguments mismatch")
  else match exprs with
       | [] => BuildFailure NoMatchingFunction
       | _ :: _ => Built (fun args => WriteLog formatString args)
       end.

End WriteLog.

End Detail.
End Logger.

Import Logger.Detail.

(** ** What the claims speak about *)

(** The number of ['%'] bytes in front of the first NUL. *)
Definition placeholder_count (format : cstring) : nat :=
  count_occ byte_eq_dec (text format) PERCENT.

(** A string whose length the address space can hold. *)
Definition addressable (s : list byte) : Prop := Z.of_nat (length s) < 2 ^ 64.

(** The width of an argument's encoding as the specification gives it:
    [sizeof(type)] for a trivially-copyable value, length + 1 for text. *)
Definition encoded_width (a : Arg) : Z :=
  match a with
  | Trivial T _ => Z.of_nat (sizeof T)
  | CharPtr str => Z.of_nat (length (text str)) + 1
  | StdString s => Z.of_nat (length s) + 1
  | CharArray arr => Z.of_nat (length (text arr)) + 1
  end.

(** The sum of the widths, in call order. *)
Definition payload_width (args : list Arg) : Z :=
  fold_right (fun a acc => encoded_width a + acc) 0 args.

(** An argument the logger supports: the object representation of a
    trivially-copyable value has the size of its type; a pointer or an
    owned string needs nothing more, a [cstring] is NUL-terminated by
    construction; a char array holds its text and the terminator and
    nothing behind them, as a string literal does. *)
Definition supported (a : Arg) : bool :=
  match a with
  | Trivial T repr => (length repr =? sizeof T)%nat
  | CharPtr _ => true
  | StdString _ => true
  | CharArray arr => (length arr =? libc.strlen arr + 1)%nat
  end.

(** No NUL byte inside the contents. *)
Definition nul_free (s : list byte) : bool :=
  forallb (fun c => negb (Byte.eqb c NUL)) s.

(** An owned string is C text when its contents hold no NUL. *)
Definition c_text (a : Arg) : bool :=
  match a with
  | StdString s => nul_free s
  | _ => true
  end.

(** The bytes [CopyArg] puts into the region for one argument. *)
Definition encoding (a : Arg) : list byte :=
  match a with
  | Trivial _ repr => repr
  | CharPtr str => text str ++ [NUL]
  | StdString s => text (c_str s) ++ [NUL]
  | CharArray arr => text arr ++ [NUL]
  end.

Definition payload (args : list Arg) : list byte := flat_map encoding args.

(** What formatting an argument in place writes: [s << arg]. *)
Definition direct (a : Arg) : list byte :=
  match a with
  | Trivial T repr => print T repr
  | CharPtr str => text str
  | StdString s => s
  | CharArray arr => text arr
  end.

(** What [FormatArg] writes for the encoding of an argument. *)
Definition decoded (a : Arg) : list byte :=
  match a with
  | Trivial T repr => print T repr
  | CharPtr str => text str
  | StdString s => text (c_str s)
  | CharArray arr => text arr
  end.

(** Substitution, left to right, of the given texts at the ['%'] bytes of
    a format text; a marker with no text left stays as it is. *)
Fixpoint substitute (format : list byte) (texts : list (list byte)) : list byte :=
  match format with
  | [] => []
  | c :: rest =>
      if Byte.eqb c PERCENT then
        match texts with
        | t :: texts' => t ++ substitute rest texts'
        | [] => c :: substitute rest []
        end
      else c :: substitute rest texts
  end.

(** Formatting the arguments in place: the substituted format text and
    the line terminator. *)
Definition direct_format (format : cstring) (args : list Arg) : list byte :=
  substitute (text format) (map direct args) ++ [LF].

(** The cells of a header in the region. *)
Definition Header_cells (h : Header) : list cell :=
  size_t_cells (ArgsSize h)
  ++ pointer_cells (PString (FormatString h))
  ++ pointer_cells (PFormatter (Formatter h)).

(** ** Instances used to run the model *)

(** The type [int]: four bytes, little-endian, printed in decimal. *)
Definition int_t : TrivType :=
  {| sizeof := 4;
     print := fun repr =>
       list_byte_of_string (NilZero.string_of_int (Z.to_int (int (le_combine repr)))) |}.

Definition Int (z : Z) : Arg := Trivial int_t (le_split 4 z).

(** A write buffer of the requested size, zero-filled. *)
Definition zeroed (size : Z) : list cell := repeat (Raw x00) (Z.to_nat size).

(** The bytes of a region of plain cells. *)
Definition bytes_of (cs : list cell) : list byte :=
  flat_map (fun c => match c with Raw b => [b] | Frag _ _ => [] end) cs.

(** A [std::string] with a NUL inside: [std::string("a\0b", 3)]. *)
Definition a_nul_b : list byte := ["a"%byte; x00; "b"%byte].

(** ** The consumer's side *)

(** The pointer a cell is the [k]-th byte of. *)
Definition frag_at (k : nat) (c : cell) : option pointer :=
  match c with
  | Frag p k' => if (k' =? k)%nat then Some p else None
  | Raw _ => None
  end.

(** Modelled from the spec: [Consume] and [GetNextReadBuffer] are declared
    in the header and defined elsewhere.  A consumer reads a stored
    pointer back from eight cells that are its fragments 0 to 7. *)
Definition load_pointer (cs : list cell) : option pointer :=
  match cs with
  | Frag p _ :: _ =>
      if (8 <=? length cs)%nat
         && forallb (fun kc => match frag_at (fst kc) (snd kc) with
                               | Some _ => true
                               | None => false
                               end)
                    (combine (seq 0 8) cs)
      then Some p else None
  | _ => None
  end.

(** Modelled from the spec: the consumer reads a stored [size_t] back
    from eight plain cells. *)
Definition load_size_t (cs : list cell) : option Z :=
  option_map le_combine (load_front cs 8).

(** Modelled from the spec: the consumer reads the header at the front of
    a record, field by field, looking at its first [sizeof(Header)] cells
    only. *)
Definition read_Header (record : list cell) : option Header :=
  let cs := firstn sizeof_Header record in
  match load_size_t cs, load_pointer (skipn 8 cs), load_pointer (skipn 16 cs) with
  | Some size, Some (PString format), Some (PFormatter Args) =>
      Some {| ArgsSize := size; FormatString := format; Formatter := Args |}
  | _, _, _ => None
  end.

(** Modelled from the spec: draining one record calls the formatter bound
    in its header on the format string of the header and on the payload
    behind the header. *)
Definition dispatch (record : list cell) (sink : ostream) : option ostream :=
  match read_Header record with
  | Some h => FormatArgs (Formatter h) sink (FormatString h) record sizeof_Header
  | None => None
  end.

(** ** Running the examples of the specification *)

(** [LOG("user % logged in at %", "alice", 1425)]: the literal is a
    [char[6]]. *)
Example user_alice :
  match WriteLog zeroed (lit "user % logged in at %") [Literal "alice"; Int 1425] with
  | Written data =>
      bytes_of (firstn 10 (skipn sizeof_Header data))
        = lit "alice" ++ [NUL] ++ le_split 4 1425
      /\ FormatArgs [T_char_array 6; T_trivial int_t] [] (lit "user % logged in at %")
           data sizeof_Header
         = Some (lit "user alice logged in at 1425" ++ [LF])
  | _ => False
  end.
Proof. vm_compute. split; reflexivity. Qed.

Example user_alice_drained :
  match WriteLog zeroed (lit "user % logged in at %") [Literal "alice"; Int 1425] with
  | Written data => dispatch data [] = Some (lit "user alice logged in at 1425" ++ [LF])
  | _ => False
  end.
Proof. vm_compute. reflexivity. Qed.

(** The formatter for no arguments prints the format string and the line
    terminator; the line [LOG("heartbeat")] itself does not build. *)
Example heartbeat :
  FormatArgs [] [] (lit "heartbeat") [] 0 = Some (lit "heartbeat" ++ [LF])
  /\ LOG zeroed (lit "heartbeat") [] = BuildFailure NoMatchingFunction.
Proof. split; reflexivity. Qed.

(** [LOG("%", n + 1)] with a variable [n]: the condition of the
    [static_assert] is no constant although the counts agree. *)
Example argument_not_constant :
  LOG zeroed (lit "%") [ {| expr_type := T_trivial int_t; constant_ok := false |} ]
  = BuildFailure NonConstantCondition.
Proof. reflexivity. Qed.

(** [char name[4] = "a"; LOG("% %", name, "xyz")]: six bytes are written
    and the assertion passes, but the formatter is [FormatArgs<char[4],
    char[4]>], whose first step moves the cursor by 4, not by 2: the line
    is ["a z"]. *)
Example array_with_room_behind_its_text :
  match WriteLog zeroed (lit "% %")
                 [CharArray ["a"%byte; x00; x00; x00]; Literal "xyz"] with
  | Written data =>
      bytes_of (skipn sizeof_Header data) = lit "a" ++ [NUL] ++ lit "xyz" ++ [NUL]
      /\ FormatArgs (map type_of [CharArray ["a"%byte; x00; x00; x00]; Literal "xyz"])
                    [] (lit "% %") data sizeof_Header
         = Some (lit "a z" ++ [LF])
  | _ => False
  end.
Proof. vm_compute. split; reflexivity. Qed.

(** ** Bytes, C strings and their text *)

Lemma eqb_true_iff (a b : byte) : Byte.eqb a b = true <-> a = b.
Proof. split; [apply byte_dec_bl | apply byte_dec_lb]. Qed.

Lemma eqb_false_iff (a b : byte) : Byte.eqb a b = false <-> a <> b.
Proof.
  split.
  - apply Byte.eqb_false.
  - intros Hne. destruct (Byte.eqb a b) eqn:E; [|reflexivity].
    apply eqb_true_iff in E. contradiction.
Qed.

Lemma strlen_text (s : cstring) : libc.strlen s = length (text s).
Proof.
  induction s as [|c rest IH]; simpl; [reflexivity|].
  destruct (Byte.eqb c NUL); simpl; congruence.
Qed.

Lemma firstn_strlen (s : cstring) : firstn (libc.strlen s) s = text s.
Proof.
  induction s as [|c rest IH]; simpl; [reflexivity|].
  destruct (Byte.eqb c NUL); simpl; congruence.
Qed.

Lemma text_length_le (s : cstring) : (length (text s) <= length s)%nat.
Proof.
  induction s as [|c rest IH]; simpl; [lia|].
  destruct (Byte.eqb c NUL); simpl; lia.
Qed.

Lemma text_nul_free (s : list byte) : nul_free s = true -> text s = s.
Proof.
  induction s as [|c rest IH]; simpl; [reflexivity|].
  intros H. apply andb_true_iff in H. destruct H as [Hc Hrest].
  apply negb_true_iff in Hc. rewrite Hc. f_equal. auto.
Qed.

Lemma text_has_no_NUL (s : cstring) : nul_free (text s) = true.
Proof.
  induction s as [|c rest IH]; simpl; [reflexivity|].
  destruct (Byte.eqb c NUL) eqn:E; simpl; [reflexivity|].
  rewrite E. simpl. exact IH.
Qed.

Lemma ostream_put_cstr_text (s : ostream) (p : cstring) :
  ostream_put_cstr s p = s ++ text p.
Proof. unfold ostream_put_cstr, ostream_write. now rewrite firstn_strlen. Qed.

(** ** Integer conversions *)

Lemma size_t_small (z : Z) : 0 <= z < 2 ^ 64 -> size_t z = z.
Proof. intros H. unfold size_t. apply Z.mod_small. exact H. Qed.

Lemma size_t_add_r (a b : Z) : size_t (a + size_t b) = size_t (a + b).
Proof. unfold size_t. apply Z.add_mod_idemp_r. lia. Qed.

Lemma size_t_add_l (a b : Z) : size_t (size_t a + b) = size_t (a + b).
Proof. unfold size_t. apply Z.add_mod_idemp_l. lia. Qed.

Lemma size_t_range (z : Z) : 0 <= size_t z < 2 ^ 64.
Proof. unfold size_t. apply Z.mod_pos_bound. lia. Qed.

(** ** CountPlaceholders *)

Lemma placeholder_count_cons (c : byte) (rest : cstring) :
  placeholder_count (c :: rest) =
    if Byte.eqb c NUL then 0%nat
    else ((if Byte.eqb c PERCENT then 1 else 0) + placeholder_count rest)%nat.
Proof.
  unfold placeholder_count. simpl.
  destruct (Byte.eqb c NUL); [reflexivity|].
  simpl. destruct (byte_eq_dec c PERCENT) as [->|Hne].
  - reflexivity.
  - apply eqb_false_iff in Hne. rewrite Hne. reflexivity.
Qed.

Lemma placeholder_count_le (format : cstring) :
  (placeholder_count format <= length format)%nat.
Proof.
  unfold placeholder_count.
  pose proof (count_occ_bound byte_eq_dec PERCENT (text format)).
  pose proof (text_length_le format). lia.
Qed.

Lemma CountPlaceholders_wraps (format : cstring) :
  CountPlaceholders format = size_t (Z.of_nat (placeholder_count format)).
Proof.
  induction format as [|c rest IH].
  - reflexivity.
  - rewrite placeholder_count_cons. simpl.
    destruct (Byte.eqb c NUL); [reflexivity|].
    rewrite IH, size_t_add_r. f_equal.
    destruct (Byte.eqb c PERCENT); lia.
Qed.

Lemma CountPlaceholders_counts (format : cstring) :
  addressable format ->
  CountPlaceholders format = Z.of_nat (placeholder_count format).
Proof.
  intros Ha. rewrite CountPlaceholders_wraps. apply size_t_small.
  pose proof (placeholder_count_le format). unfold addressable in Ha. lia.
Qed.

(** ** The placeholder search *)

Lemma strstr_None (format : cstring) :
  libc.strstr format PERCENT = None <-> placeholder_count format = 0%nat.
Proof.
  induction format as [|c rest IH]; simpl.
  - split; reflexivity.
  - rewrite placeholder_count_cons.
    destruct (Byte.eqb c NUL); [split; reflexivity|].
    destruct (Byte.eqb c PERCENT); simpl.
    + split; discriminate.
    + destruct (libc.strstr rest PERCENT) eqn:E; simpl.
      * split; [discriminate|]. intros H. apply IH in H. discriminate.
      * split; [|reflexivity]. intros _. now apply IH.
Qed.

(** What a found placeholder says about the format: the bytes in front of
    it are literal text, it is a ['%'], and the text goes on behind it. *)
Lemma strstr_Some (format : cstring) (k : nat) :
  libc.strstr format PERCENT = Some k ->
  text format = firstn k format ++ PERCENT :: text (skipn (k + 1) format)
  /\ count_occ byte_eq_dec (firstn k format) PERCENT = 0%nat
  /\ nul_free (firstn k format) = true
  /\ length (firstn k format) = k.
Proof.
  revert k. induction format as [|c rest IH]; simpl; intros k H.
  - discriminate.
  - destruct (Byte.eqb c NUL) eqn:En; [discriminate|].
    destruct (Byte.eqb c PERCENT) eqn:Ep.
    + inversion H; subst k. simpl. apply eqb_true_iff in Ep. subst c.
      repeat split; reflexivity.
    + destruct (libc.strstr rest PERCENT) as [k'|] eqn:E; simpl in H; [|discriminate].
      inversion H; subst k. simpl.
      destruct (IH k' eq_refl) as (Ht & Hc & Hn & Hl).
      rewrite En. simpl. repeat split.
      * now rewrite Ht at 1.
      * apply eqb_false_iff in Ep.
        destruct (byte_eq_dec c PERCENT); [contradiction|exact Hc].
      * exact Hn.
      * now rewrite Hl.
Qed.

Lemma strstr_in_text (format : cstring) (k : nat) :
  libc.strstr format PERCENT = Some k -> (k < libc.strlen format)%nat.
Proof.
  intros H. destruct (strstr_Some _ _ H) as (Ht & _ & _ & Hl).
  rewrite strlen_text, Ht, length_app. simpl. lia.
Qed.

Lemma strstr_points_at_percent (format : cstring) (k : nat) :
  libc.strstr format PERCENT = Some k -> nth_error format k = Some PERCENT.
Proof.
  revert k. induction format as [|c rest IH]; simpl; intros k H; [discriminate|].
  destruct (Byte.eqb c NUL); [discriminate|].
  destruct (Byte.eqb c PERCENT) eqn:Ep.
  - inversion H; subst. simpl. apply eqb_true_iff in Ep. now subst.
  - destruct (libc.strstr rest PERCENT) as [k'|]; simpl in H; [|discriminate].
    inversion H; subst. simpl. now apply IH.
Qed.

Lemma count_occ_zero_app (l : list byte) (x : byte) (r : list byte) :
  count_occ byte_eq_dec l x = 0%nat ->
  count_occ byte_eq_dec (l ++ r) x = count_occ byte_eq_dec r x.
Proof. intros H. rewrite count_occ_app. lia. Qed.

Lemma placeholder_count_after (format : cstring) (k : nat) :
  libc.strstr format PERCENT = Some k ->
  placeholder_count format = S (placeholder_count (skipn (k + 1) format)).
Proof.
  intros H. destruct (strstr_Some _ _ H) as (Ht & Hc & _ & _).
  unfold placeholder_count at 1. rewrite Ht.
  rewrite count_occ_zero_app by exact Hc.
  rewrite count_occ_cons_eq by reflexivity. reflexivity.
Qed.

(** Literal text in front of the first placeholder passes through
    substitution as it is. *)
Lemma substitute_literal (l rest : list byte) (texts : list (list byte)) :
  count_occ byte_eq_dec l PERCENT = 0%nat ->
  substitute (l ++ rest) texts = l ++ substitute rest texts.
Proof.
  induction l as [|c l IH]; simpl; intros H; [reflexivity|].
  destruct (byte_eq_dec c PERCENT) as [->|Hne]; [discriminate|].
  apply eqb_false_iff in Hne. rewrite Hne. f_equal. auto.
Qed.

Lemma substitute_at_placeholder (format : cstring) (k : nat)
      (t : list byte) (texts : list (list byte)) :
  libc.strstr format PERCENT = Some k ->
  substitute (text format) (t :: texts)
  = firstn k format ++ t ++ substitute (text (skipn (k + 1) format)) texts.
Proof.
  intros H. destruct (strstr_Some _ _ H) as (Ht & Hc & _ & _).
  rewrite Ht at 1. rewrite substitute_literal by exact Hc.
  simpl. reflexivity.
Qed.

Lemma substitute_no_texts (format : list byte) : substitute format [] = format.
Proof.
  induction format as [|c rest IH]; simpl; [reflexivity|].
  destruct (Byte.eqb c PERCENT); now rewrite IH.
Qed.

(** ** Reads and writes in the region

    The region is split as [pre ++ hole ++ post]: a write at offset
    [length pre] fills the hole and leaves the frame as it was. *)

Lemma skipn_frame {A : Type} (pre rest : list A) :
  skipn (length pre) (pre ++ rest) = rest.
Proof. induction pre as [|x pre IH]; simpl; auto. Qed.

Lemma firstn_frame {A : Type} (pre rest : list A) :
  firstn (length pre) (pre ++ rest) = pre.
Proof. induction pre as [|x pre IH]; simpl; [|f_equal]; auto using firstn_O. Qed.

Lemma store_frame (pre hole post cs : list cell) :
  length hole = length cs ->
  store (pre ++ hole ++ post) (length pre) cs = Some (pre ++ cs ++ post).
Proof.
  intros Hlen. unfold store.
  assert (Hfit : (length pre + length cs <=? length (pre ++ hole ++ post))%nat = true).
  { apply Nat.leb_le. rewrite !length_app. lia. }
  rewrite Hfit, firstn_frame. do 3 f_equal.
  rewrite <- Hlen, <- length_app, app_assoc. apply skipn_frame.
Qed.

Lemma load_front_frame (bs : list byte) (post : list cell) :
  load_front (map Raw bs ++ post) (length bs) = Some bs.
Proof. induction bs as [|b bs IH]; simpl; [|rewrite IH]; reflexivity. Qed.

Lemma load_frame (pre post : list cell) (bs : list byte) :
  load (pre ++ map Raw bs ++ post) (length pre) (length bs) = Some bs.
Proof. unfold load. rewrite skipn_frame. apply load_front_frame. Qed.

Lemma strlen_front_frame (t : list byte) (post : list cell) :
  nul_free t = true ->
  strlen_front (map Raw t ++ Raw NUL :: post) = Some (length t).
Proof.
  induction t as [|c t IH]; simpl; intros H; [reflexivity|].
  apply andb_true_iff in H. destruct H as [Hc Ht].
  apply negb_true_iff in Hc. rewrite Hc, (IH Ht). reflexivity.
Qed.

Lemma map_Raw_terminated (t : list byte) (post : list cell) :
  map Raw (t ++ [NUL]) ++ post = map Raw t ++ Raw NUL :: post.
Proof. rewrite map_app, <- app_assoc. reflexivity. Qed.

(** ** The serializer in closed form *)

Lemma supported_length (a : Arg) :
  supported a = true ->
  length (encoding a) =
    match a with
    | Trivial T _ => sizeof T
    | CharPtr str => (libc.strlen str + 1)%nat
    | StdString s => (libc.strlen (c_str s) + 1)%nat
    | CharArray arr => (libc.strlen arr + 1)%nat
    end.
Proof.
  destruct a as [T repr|str|s|arr]; simpl; intros H.
  - now apply Nat.eqb_eq.
  - rewrite length_app, strlen_text. reflexivity.
  - rewrite length_app, strlen_text. reflexivity.
  - rewrite length_app, strlen_text. reflexivity.
Qed.

Lemma CopyArg_frame (pre hole post : list cell) (a : Arg) :
  supported a = true ->
  length hole = length (encoding a) ->
  CopyArg (pre ++ hole ++ post) (length pre) a
  = Some (pre ++ map Raw (encoding a) ++ post,
          (length pre + length (encoding a))%nat).
Proof.
  intros Hs Hh. pose proof (supported_length a Hs) as Hl.
  destruct a as [T repr|str|s|arr]; simpl in *;
    unfold CopyArg_cstr, strcpy;
    rewrite store_frame by (now rewrite length_map);
    do 2 f_equal; lia.
Qed.

Lemma payload_cons (a : Arg) (args : list Arg) :
  payload (a :: args) = encoding a ++ payload args.
Proof. reflexivity. Qed.

Lemma split_hole {A : Type} (hole : list A) (n m : nat) :
  length hole = (n + m)%nat ->
  exists h1 h2, hole = h1 ++ h2 /\ length h1 = n /\ length h2 = m.
Proof.
  intros H. exists (firstn n hole), (skipn n hole).
  rewrite firstn_skipn, length_firstn, length_skipn. repeat split; lia.
Qed.

Lemma CopyArgs_frame (args : list Arg) :
  forall pre hole post,
    forallb supported args = true ->
    length hole = length (payload args) ->
    CopyArgs (pre ++ hole ++ post) (length pre) args
    = Some (pre ++ map Raw (payload args) ++ post,
            (length pre + length (payload args))%nat).
Proof.
  induction args as [|a args IH]; intros pre hole post Hs Hh.
  - simpl in *. apply length_zero_iff_nil in Hh. subst hole.
    simpl. now rewrite Nat.add_0_r.
  - simpl in Hs. apply andb_true_iff in Hs. destruct Hs as [Ha Hargs].
    rewrite payload_cons, length_app in Hh.
    destruct (split_hole hole _ _ Hh) as (h1 & h2 & -> & H1 & H2).
    cbn [CopyArgs]. rewrite <- (app_assoc h1 h2 post).
    rewrite (CopyArg_frame pre h1 (h2 ++ post) a Ha H1).
    replace (pre ++ map Raw (encoding a) ++ h2 ++ post)
      with ((pre ++ map Raw (encoding a)) ++ h2 ++ post)
      by (now rewrite <- app_assoc).
    replace (length pre + length (encoding a))%nat
      with (length (pre ++ map Raw (encoding a)))
      by (now rewrite length_app, length_map).
    rewrite (IH _ h2 post Hargs H2).
    rewrite payload_cons, map_app, !length_app, length_map, <- !app_assoc.
    do 2 f_equal. lia.
Qed.

(** A region is always some frame around the hole at [pos]. *)
Lemma region_frame (mem : list cell) (pos n : nat) :
  (pos + n <= length mem)%nat ->
  exists pre hole post,
    mem = pre ++ hole ++ post /\ length pre = pos /\ length hole = n.
Proof.
  intros H. exists (firstn pos mem), (firstn n (skipn pos mem)), (skipn n (skipn pos mem)).
  rewrite !firstn_skipn, !length_firstn, length_skipn. repeat split; lia.
Qed.

(** ** The formatter on a serialized payload *)

Lemma FormatArg_cstr_frame (out : ostream) (pre post : list cell) (str : cstring) :
  FormatArg_cstr out (pre ++ map Raw (text str ++ [NUL]) ++ post) (length pre)
  = Some (out ++ text str, (length pre + length (text str ++ [NUL]))%nat).
Proof.
  unfold FormatArg_cstr, strlen_at. rewrite skipn_frame, map_Raw_terminated.
  rewrite strlen_front_frame by apply text_has_no_NUL.
  rewrite load_frame. rewrite length_app. simpl. do 2 f_equal. lia.
Qed.

Lemma FormatArg_frame (out : ostream) (pre post : list cell) (a : Arg) :
  supported a = true ->
  FormatArg (type_of a) out (pre ++ map Raw (encoding a) ++ post) (length pre)
  = Some (out ++ decoded a, (length pre + length (encoding a))%nat).
Proof.
  intros Hs. destruct a as [T repr|str|s|arr]; simpl in *.
  - apply Nat.eqb_eq in Hs. rewrite <- Hs, load_frame. reflexivity.
  - apply FormatArg_cstr_frame.
  - apply FormatArg_cstr_frame.
  - apply Nat.eqb_eq in Hs.
    pose proof (FormatArg_cstr_frame out pre post arr) as H.
    unfold FormatArg_cstr in H. unfold FormatArg_array.
    destruct (strlen_at _ _) as [l|]; [|discriminate].
    destruct (load _ _ l) as [bytes|]; [|discriminate].
    inversion H as [[H1 H2]]. rewrite H1. do 2 f_equal.
    rewrite length_app in H2. simpl in H2. rewrite strlen_text in Hs. lia.
Qed.

(** The cursor [FormatArg] returns does not depend on the stream. *)
Lemma FormatArg_cursor (A : ArgType) (out out' : ostream) (mem : list cell) (pos : nat) :
  option_map snd (FormatArg A out mem pos) = option_map snd (FormatArg A out' mem pos).
Proof.
  destruct A as [T| | |N]; simpl; unfold FormatArg_cstr, FormatArg_array.
  - destruct (load mem pos (sizeof T)); reflexivity.
  - destruct (strlen_at mem pos) as [l|]; [|reflexivity].
    destruct (load mem pos l); reflexivity.
  - destruct (strlen_at mem pos) as [l|]; [|reflexivity].
    destruct (load mem pos l); reflexivity.
  - destruct (strlen_at mem pos) as [l|]; [|reflexivity].
    destruct (load mem pos l); reflexivity.
Qed.

(** [FormatArgs] runs the chain of [FormatArg] calls that [decode_cursor]
    follows. *)
Lemma FormatArgs_decodes (Args : list ArgType) :
  forall s format mem buffer out,
    FormatArgs Args s format mem buffer = Some out ->
    exists end_, decode_cursor Args mem buffer = Some end_.
Proof.
  induction Args as [|A Args IH]; intros s format mem buffer out H.
  - now exists buffer.
  - cbn [FormatArgs decode_cursor] in *.
    destruct (libc.strstr format PERCENT) as [k|]; [|discriminate].
    pose proof (FormatArg_cursor A [] (ostream_write s format k) mem buffer) as Hc.
    destruct (FormatArg A (ostream_write s format k) mem buffer) as [[s1 b1]|];
      [|discriminate].
    destruct (FormatArg A [] mem buffer) as [[s0 b0]|]; [|discriminate].
    simpl in Hc. inversion Hc; subst b0. eapply IH. exact H.
Qed.

Lemma decode_cursor_frame (args : list Arg) :
  forall pre post,
    forallb supported args = true ->
    decode_cursor (map type_of args) (pre ++ map Raw (payload args) ++ post) (length pre)
    = Some (length pre + length (payload args))%nat.
Proof.
  induction args as [|a args IH]; intros pre post Hs.
  - simpl. now rewrite Nat.add_0_r.
  - simpl in Hs. apply andb_true_iff in Hs. destruct Hs as [Ha Hargs].
    cbn [map decode_cursor]. rewrite payload_cons, map_app, <- app_assoc.
    rewrite (FormatArg_frame [] pre _ a Ha).
    replace (pre ++ map Raw (encoding a) ++ map Raw (payload args) ++ post)
      with ((pre ++ map Raw (encoding a)) ++ map Raw (payload args) ++ post)
      by (now rewrite <- app_assoc).
    replace (length pre + length (encoding a))%nat
      with (length (pre ++ map Raw (encoding a)))
      by (now rewrite length_app, length_map).
    rewrite (IH _ post Hargs). rewrite !length_app, length_map. f_equal. lia.
Qed.

Lemma FormatArgs_frame (args : list Arg) :
  forall pre post out format,
    forallb supported args = true ->
    (length args <= placeholder_count format)%nat ->
    FormatArgs (map type_of args) out format
               (pre ++ map Raw (payload args) ++ post) (length pre)
    = Some (out ++ substitute (text format) (map decoded args) ++ [LF]).
Proof.
  induction args as [|a args IH]; intros pre post out format Hs Hn.
  - simpl. unfold ostream_endl. rewrite ostream_put_cstr_text, substitute_no_texts.
    now rewrite <- app_assoc.
  - simpl in Hs. apply andb_true_iff in Hs. destruct Hs as [Ha Hargs].
    cbn [map FormatArgs].
    destruct (libc.strstr format PERCENT) as [k|] eqn:Ek.
    2:{ apply strstr_None in Ek. simpl in Hn. lia. }
    rewrite payload_cons, map_app, <- app_assoc.
    rewrite (FormatArg_frame _ pre _ a Ha).
    replace (pre ++ map Raw (encoding a) ++ map Raw (payload args) ++ post)
      with ((pre ++ map Raw (encoding a)) ++ map Raw (payload args) ++ post)
      by (now rewrite <- app_assoc).
    replace (length pre + length (encoding a))%nat
      with (length (pre ++ map Raw (encoding a)))
      by (now rewrite length_app, length_map).
    rewrite (IH _ post _ (skipn (k + 1) format) Hargs).
    + rewrite (substitute_at_placeholder format k _ _ Ek).
      unfold ostream_write. now rewrite <- !app_assoc.
    + rewrite (placeholder_count_after _ _ Ek) in Hn. simpl in Hn. lia.
Qed.

Lemma decoded_c_text (args : list Arg) :
  forallb c_text args = true -> map decoded args = map direct args.
Proof.
  induction args as [|a args IH]; simpl; intros H; [reflexivity|].
  apply andb_true_iff in H. destruct H as [Ha Hargs].
  rewrite (IH Hargs). f_equal.
  destruct a as [T repr|str|s|arr]; simpl in *; try reflexivity.
  now apply text_nul_free.
Qed.

(** ** The size calculator *)

Lemma GetArgSize_wraps (a : Arg) : GetArgSize a = size_t (encoded_width a).
Proof.
  destruct a as [T repr|str|s|arr]; simpl.
  - reflexivity.
  - now rewrite size_t_add_l, strlen_text.
  - now rewrite size_t_add_l.
  - now rewrite size_t_add_l, strlen_text.
Qed.

Lemma GetArgsSize_wraps (args : list Arg) :
  GetArgsSize args = size_t (payload_width args).
Proof.
  induction args as [|a args IH]; simpl; [reflexivity|].
  now rewrite IH, GetArgSize_wraps, size_t_add_l, size_t_add_r.
Qed.

Lemma encoded_width_pos (a : Arg) : 0 <= encoded_width a.
Proof. destruct a; simpl; lia. Qed.

Lemma payload_width_nonneg (args : list Arg) : 0 <= payload_width args.
Proof.
  induction args as [|a args IH]; simpl; [lia|].
  pose proof (encoded_width_pos a). lia.
Qed.

Lemma GetArgsSize_sum (args : list Arg) :
  payload_width args < 2 ^ 64 -> GetArgsSize args = payload_width args.
Proof.
  intros H. rewrite GetArgsSize_wraps. apply size_t_small.
  pose proof (payload_width_nonneg args). lia.
Qed.

(** The serialized length against the predicted width: equal for C text,
    never larger. *)
Lemma encoding_width (a : Arg) :
  supported a = true -> c_text a = true ->
  Z.of_nat (length (encoding a)) = encoded_width a.
Proof.
  destruct a as [T repr|str|s|arr]; simpl; intros Hs Hc.
  - apply Nat.eqb_eq in Hs. now rewrite Hs.
  - rewrite length_app. simpl. lia.
  - unfold c_str. rewrite (text_nul_free _ Hc), length_app. simpl. lia.
  - rewrite length_app. simpl. lia.
Qed.

Lemma payload_length_width (args : list Arg) :
  forallb supported args = true -> forallb c_text args = true ->
  Z.of_nat (length (payload args)) = payload_width args.
Proof.
  induction args as [|a args IH]; simpl; intros Hs Hc; [reflexivity|].
  apply andb_true_iff in Hs. apply andb_true_iff in Hc.
  destruct Hs as [Ha Hs], Hc as [Hca Hc].
  rewrite length_app, Nat2Z.inj_add, (encoding_width a Ha Hca), (IH Hs Hc).
  reflexivity.
Qed.

Lemma encoding_width_le (a : Arg) :
  supported a = true -> Z.of_nat (length (encoding a)) <= encoded_width a.
Proof.
  destruct a as [T repr|str|s|arr]; simpl; intros Hs.
  - apply Nat.eqb_eq in Hs. rewrite Hs. lia.
  - rewrite length_app. simpl. lia.
  - rewrite length_app. simpl. pose proof (text_length_le s). unfold c_str. lia.
  - rewrite length_app. simpl. lia.
Qed.

Lemma payload_length_le (args : list Arg) :
  forallb supported args = true ->
  Z.of_nat (length (payload args)) <= payload_width args.
Proof.
  induction args as [|a args IH]; simpl; intros Hs; [lia|].
  apply andb_true_iff in Hs. destruct Hs as [Ha Hs].
  rewrite length_app, Nat2Z.inj_add.
  pose proof (encoding_width_le a Ha). specialize (IH Hs). lia.
Qed.

(** ** The header in the region *)

Lemma store_at (pre hole post cs : list cell) (pos : nat) :
  length pre = pos -> length hole = length cs ->
  store (pre ++ hole ++ post) pos cs = Some (pre ++ cs ++ post).
Proof. intros <- H. now apply store_frame. Qed.

Lemma store_front (hole post cs : list cell) :
  length hole = length cs -> store (hole ++ post) 0 cs = Some (cs ++ post).
Proof. exact (store_frame [] hole post cs). Qed.

Lemma size_t_cells_length (z : Z) : length (size_t_cells z) = 8%nat.
Proof. unfold size_t_cells. now rewrite length_map, length_le_split. Qed.

Lemma pointer_cells_length (p : pointer) : length (pointer_cells p) = 8%nat.
Proof. reflexivity. Qed.

Lemma Header_cells_length (h : Header) : length (Header_cells h) = sizeof_Header.
Proof.
  unfold Header_cells.
  now rewrite !length_app, size_t_cells_length, !pointer_cells_length.
Qed.

Lemma store_Header_frame (hole post : list cell) (h : Header) :
  length hole = sizeof_Header ->
  store_Header (hole ++ post) h = Some (Header_cells h ++ post).
Proof.
  intros Hh.
  destruct (split_hole hole 8 16 Hh) as (c0 & c12 & -> & H0 & H12).
  destruct (split_hole c12 8 8 H12) as (c1 & c2 & -> & H1 & H2).
  unfold store_Header, Header_cells.
  rewrite <- !app_assoc.
  rewrite store_front by (now rewrite size_t_cells_length).
  rewrite (store_at (size_t_cells (ArgsSize h)) c1 _ _ 8 (size_t_cells_length _))
    by (now rewrite pointer_cells_length).
  rewrite app_assoc.
  rewrite (store_at _ c2 post (pointer_cells (PFormatter (Formatter h))) 16).
  - now rewrite <- app_assoc.
  - now rewrite length_app, size_t_cells_length, pointer_cells_length.
  - now rewrite pointer_cells_length.
Qed.

Lemma load_size_t_cells (z : Z) (rest : list cell) :
  load_size_t (size_t_cells z ++ rest) = Some (size_t z).
Proof.
  unfold load_size_t, size_t_cells.
  rewrite <- (length_le_split 8 z) at 2.
  rewrite load_front_frame. simpl option_map.
  now rewrite le_combine_split.
Qed.

Lemma load_pointer_cells (p : pointer) (rest : list cell) :
  load_pointer (pointer_cells p ++ rest) = Some p.
Proof. reflexivity. Qed.

Lemma skipn_size_t_cells (z : Z) (rest : list cell) :
  skipn 8 (size_t_cells z ++ rest) = rest.
Proof. rewrite <- (size_t_cells_length z) at 1. apply skipn_frame. Qed.

Lemma read_Header_cells (h : Header) (rest : list cell) :
  0 <= ArgsSize h < 2 ^ 64 ->
  read_Header (Header_cells h ++ rest) = Some h.
Proof.
  intros Hr. unfold read_Header.
  rewrite <- (Header_cells_length h), firstn_frame.
  unfold Header_cells.
  rewrite load_size_t_cells, skipn_size_t_cells, load_pointer_cells.
  change 16%nat with (8 + 8)%nat.
  rewrite <- skipn_skipn, skipn_size_t_cells.
  change (skipn 8 (pointer_cells (PString (FormatString h)) ++ ?r)) with r.
  rewrite size_t_small by exact Hr.
  destruct h; reflexivity.
Qed.

(** ** WriteLog in closed form *)

Lemma int_small (z : Z) : - 2 ^ 31 <= z < 2 ^ 31 -> int z = z.
Proof. intros H. unfold int. rewrite Z.mod_small; lia. Qed.

(** The contract of the channel, [region_exact], is that the region has
    exactly the requested size; [request_fits] says the request fits the
    [int] parameter of [GetWriteBuffer]. *)
Lemma WriteLog_closed_form
      (GetWriteBuffer : Z -> list cell) (formatString : cstring) (args : list Arg)
      (region_exact :
         forall size, 0 <= size -> length (GetWriteBuffer size) = Z.to_nat size)
      (args_supported : forallb supported args = true)
      (request_fits : payload_width args + Z.of_nat sizeof_Header < 2 ^ 31) :
  exists post,
    Z.of_nat (length (payload args) + length post) = GetArgsSize args
    /\ WriteLog GetWriteBuffer formatString args
       = (if Z.of_nat (length (payload args)) =? GetArgsSize args
          then Written
                 (Header_cells {| ArgsSize := GetArgsSize args;
                                  FormatString := formatString;
                                  Formatter := map type_of args |}
                  ++ map Raw (payload args) ++ post)
          else AssertionFailed
                 (Header_cells {| ArgsSize := GetArgsSize args;
                                  FormatString := formatString;
                                  Formatter := map type_of args |}
                  ++ map Raw (payload args) ++ post)).
Proof.
  set (header := {| ArgsSize := GetArgsSize args;
                    FormatString := formatString;
                    Formatter := map type_of args |}).
  pose proof (payload_width_nonneg args) as Hnn.
  pose proof (payload_length_le args args_supported) as Hle.
  assert (Hsize : GetArgsSize args = payload_width args).
  { apply GetArgsSize_sum. unfold sizeof_Header in request_fits. lia. }
  unfold WriteLog. fold header.
  set (request := int (size_t (GetArgsSize args + Z.of_nat sizeof_Header))).
  assert (Hreq : request = payload_width args + Z.of_nat sizeof_Header).
  { unfold request. rewrite Hsize, size_t_small, int_small; unfold sizeof_Header in *; lia. }
  assert (Hlen : length (GetWriteBuffer request)
                 = (sizeof_Header + (length (payload args)
                      + (Z.to_nat (payload_width args) - length (payload args))))%nat).
  { rewrite region_exact by (rewrite Hreq; lia). rewrite Hreq. lia. }
  destruct (split_hole _ _ _ Hlen) as (hole & rest & Hdata & Hhole & Hrest).
  destruct (split_hole _ _ _ Hrest) as (hole2 & post & -> & Hhole2 & Hpost).
  exists post. split; [rewrite Hsize; lia|].
  rewrite Hdata, (store_Header_frame hole _ header Hhole).
  rewrite <- (Header_cells_length header) at 1.
  rewrite (CopyArgs_frame args (Header_cells header) hole2 post args_supported Hhole2).
  rewrite Header_cells_length.
  replace (Z.of_nat (sizeof_Header + length (payload args)) - Z.of_nat sizeof_Header)
    with (Z.of_nat (length (payload args))) by lia.
  rewrite size_t_small by lia.
  reflexivity.
Qed.

(** ** Substitution uses up every marker *)

Lemma count_occ_substitute (format : list byte) :
  forall texts,
    length texts = count_occ byte_eq_dec format PERCENT ->
    count_occ byte_eq_dec (substitute format texts) PERCENT
    = count_occ byte_eq_dec (concat texts) PERCENT.
Proof.
  induction format as [|c rest IH]; intros texts Hlen.
  - destruct texts; [reflexivity|discriminate].
  - simpl in Hlen. destruct (byte_eq_dec c PERCENT) as [->|Hne].
    + destruct texts as [|t texts]; [discriminate|].
      simpl. rewrite !count_occ_app. f_equal. apply IH.
      simpl in Hlen. congruence.
    + simpl. pose proof Hne as Hb. apply eqb_false_iff in Hb. rewrite Hb.
      rewrite count_occ_cons_neq by exact Hne. now apply IH.
Qed.

Lemma placeholder_step (n : nat) (format : cstring) :
  Z.of_nat (S n) <= CountPlaceholders format ->
  exists placeholder,
    libc.strstr format PERCENT = Some placeholder
    /\ Z.of_nat n <= CountPlaceholders (skipn (placeholder + 1) format).
Proof.
  intros Hn. rewrite CountPlaceholders_wraps in Hn.
  destruct (libc.strstr format PERCENT) as [k|] eqn:Ek.
  - exists k. split; [reflexivity|].
    rewrite CountPlaceholders_wraps.
    rewrite (placeholder_count_after _ _ Ek) in Hn.
    unfold size_t in *. rewrite !Nat2Z.inj_succ in Hn.
    set (c := Z.of_nat (placeholder_count (skipn (k + 1) format))) in *.
    pose proof (Z.div_mod c (2 ^ 64) ltac:(lia)).
    pose proof (Z.div_mod (Z.succ c) (2 ^ 64) ltac:(lia)).
    pose proof (Z.mod_pos_bound c (2 ^ 64) ltac:(lia)).
    pose proof (Z.mod_pos_bound (Z.succ c) (2 ^ 64) ltac:(lia)).
    lia.
  - apply strstr_None in Ek. rewrite Ek in Hn.
    unfold size_t in Hn. rewrite Z.mod_0_l in Hn; lia.
Qed.

Lemma FormatArgs_total (Args : list ArgType) :
  forall s format mem buffer,
    Z.of_nat (length Args) <= CountPlaceholders format ->
    decode_cursor Args mem buffer <> None ->
    FormatArgs Args s format mem buffer <> None.
Proof.
  induction Args as [|A Args IH]; intros s format mem buffer Hn Hd.
  - discriminate.
  - destruct (placeholder_step _ _ Hn) as (k & Ek & Hk).
    cbn [FormatArgs decode_cursor] in *. rewrite Ek.
    pose proof (FormatArg_cursor A [] (ostream_write s format k) mem buffer) as Hc.
    destruct (FormatArg A [] mem buffer) as [[s0 b0]|]; [|contradiction].
    destruct (FormatArg A (ostream_write s format k) mem buffer) as [[s1 b1]|];
      [|discriminate].
    simpl in Hc. inversion Hc; subst b1. now apply IH.
Qed.

(** ** The claims about the format string *)

(** C9. [CountPlaceholders] counts every ['%'] byte in front of the first
    NUL of the format string, with no escape: the text ["%%"] counts as
    two placeholders, and in a call that passed the check of [LOG] (as
    many arguments as markers) every ['%'] of the line [FormatArgs] writes
    comes from the text of an argument, none from the format string. *)
Theorem CountPlaceholders_counts_every_percent
        (format : cstring) (args : list Arg) (pre post : list cell) (out : ostream) :
  addressable format ->
  forallb supported args = true ->
  length args = placeholder_count format ->
  CountPlaceholders format = Z.of_nat (placeholder_count format)
  /\ CountPlaceholders (lit "%%") = 2
  /\ exists line,
       FormatArgs (map type_of args) out format
                  (pre ++ map Raw (payload args) ++ post) (length pre)
       = Some (out ++ line)
       /\ count_occ byte_eq_dec line PERCENT
          = count_occ byte_eq_dec (concat (map decoded args)) PERCENT.
Proof.
  intros Ha Hs Hlen. split; [now apply CountPlaceholders_counts|].
  split; [reflexivity|].
  exists (substitute (text format) (map decoded args) ++ [LF]). split.
  - apply FormatArgs_frame; [exact Hs|lia].
  - rewrite count_occ_app, count_occ_substitute.
    + simpl. lia.
    + rewrite length_map. exact Hlen.
Qed.

Lemma CountPlaceholders_counts_every_percent_witness :
  CountPlaceholders (lit "%% of %") = 3.
Proof.
  refine (proj1 (CountPlaceholders_counts_every_percent
                   (lit "%% of %") [Int 7; CharPtr (lit "x"); Int 9] [] [] [] _ _ _)).
  - vm_compute. reflexivity.
  - vm_compute. reflexivity.
  - vm_compute. reflexivity.
Defined.

(** C10. In the recursive step of [FormatArgs], when the format string
    that is left holds at least as many markers as there are arguments
    left, [strstr] finds a placeholder: the pointer is not null, it lies
    inside the text and points at a ['%'], the same bound holds behind it
    for the arguments that remain, and so the whole run never takes the
    null branch: [FormatArgs] fails only where decoding the payload
    does. *)
Theorem placeholder_always_found
        (A : ArgType) (Args : list ArgType) (format : cstring) :
  Z.of_nat (length (A :: Args)) <= CountPlaceholders format ->
  (exists placeholder,
      libc.strstr format PERCENT = Some placeholder
      /\ (placeholder < libc.strlen format)%nat
      /\ nth_error format placeholder = Some PERCENT
      /\ Z.of_nat (length Args) <= CountPlaceholders (skipn (placeholder + 1) format))
  /\ (forall s mem buffer,
         decode_cursor (A :: Args) mem buffer <> None ->
         FormatArgs (A :: Args) s format mem buffer <> None).
Proof.
  intros Hn. split.
  - destruct (placeholder_step _ _ Hn) as (k & Ek & Hk).
    exists k. repeat split.
    + exact Ek.
    + now apply strstr_in_text.
    + now apply strstr_points_at_percent.
    + exact Hk.
  - intros s mem buffer. now apply FormatArgs_total.
Qed.

Lemma placeholder_always_found_witness :
  exists placeholder,
    libc.strstr (lit "user % logged in at %") PERCENT = Some placeholder
    /\ (placeholder < libc.strlen (lit "user % logged in at %"))%nat
    /\ nth_error (lit "user % logged in at %") placeholder = Some PERCENT
    /\ Z.of_nat (length [T_trivial int_t])
       <= CountPlaceholders (skipn (placeholder + 1) (lit "user % logged in at %")).
Proof.
  refine (proj1 (placeholder_always_found T_char_ptr [T_trivial int_t]
                   (lit "user % logged in at %") _)).
  vm_compute. discriminate.
Defined.

(** ** The claims about sizes and single arguments *)

(** C4. [GetArgsSize] returns the sum, in call order, of [sizeof(type)]
    for each trivially-copyable argument and of length + 1 for each text
    argument; the empty list gives 0.  It is a total function of its
    arguments.  The sum is taken in [size_t]: it is the exact sum whenever
    that is below 2^64. *)
Theorem GetArgsSize_is_sum (args : list Arg) :
  payload_width args < 2 ^ 64 ->
  GetArgsSize args = payload_width args
  /\ GetArgsSize [] = 0
  /\ (forall T repr, GetArgSize (Trivial T repr) = size_t (Z.of_nat (sizeof T)))
  /\ (forall str, GetArgSize (CharPtr str) = size_t (Z.of_nat (length (text str)) + 1))
  /\ (forall s, GetArgSize (StdString s) = size_t (Z.of_nat (length s) + 1)).
Proof.
  intros H. split; [now apply GetArgsSize_sum|].
  split; [reflexivity|].
  repeat split; intros.
  - apply (GetArgSize_wraps (CharPtr str)).
  - apply (GetArgSize_wraps (StdString s)).
Qed.

Lemma GetArgsSize_is_sum_witness :
  GetArgsSize [CharPtr (lit "alice"); Int 1425; StdString (lit "bob")] = 6 + 4 + 4 + 0.
Proof.
  refine (proj1 (GetArgsSize_is_sum
                   [CharPtr (lit "alice"); Int 1425; StdString (lit "bob")] _)).
  vm_compute. reflexivity.
Defined.

(** C6. With no arguments the terminator overload of [FormatArgs] writes
    the text of the format string and one line terminator behind it,
    whatever the payload region and cursor are (it reads neither); for a
    format string with no NUL inside, that text is the string itself. *)
Theorem FormatArgs_no_arguments
        (s : ostream) (format : cstring) (mem : list cell) (buffer : nat) :
  FormatArgs [] s format mem buffer = Some (s ++ text format ++ [LF])
  /\ FormatArgs [] s format mem buffer = FormatArgs [] s format [] 0
  /\ (nul_free format = true ->
      FormatArgs [] s format mem buffer = Some (s ++ format ++ [LF])).
Proof.
  assert (H : FormatArgs [] s format mem buffer = Some (s ++ text format ++ [LF])).
  { simpl. unfold ostream_endl. rewrite ostream_put_cstr_text.
    now rewrite <- app_assoc. }
  split; [exact H|]. split; [reflexivity|].
  intros Hn. rewrite H. now rewrite (text_nul_free _ Hn).
Qed.

Lemma FormatArgs_no_arguments_witness :
  FormatArgs [] [] (lit "heartbeat") [Raw x00] 0 = Some (lit "heartbeat" ++ [LF]).
Proof.
  refine (proj2 (proj2 (FormatArgs_no_arguments [] (lit "heartbeat") [Raw x00] 0)) _).
  vm_compute. reflexivity.
Defined.



(** ** The claims about the call site and the record *)

Lemma unsigned_small (z : Z) : 0 <= z < 2 ^ 32 -> unsigned z = z.
Proof. intros H. unfold unsigned. now apply Z.mod_small. Qed.

(** C5. A [LOG] line becomes code that creates a record only when
    [CountPlaceholders] of its format string equals the number of its
    arguments; on a mismatch the build fails (the [static_assert] fails,
    with its message when its condition is a constant), so nothing exists
    that could run and no record is created.  The line builds exactly
    when, besides, it has an argument and every argument may stand in a
    constant expression. *)
Theorem LOG_checks_arity_at_build
        (GetWriteBuffer : Z -> list cell) (formatString : cstring) (exprs : list ArgExpr) :
  Z.of_nat (length exprs) < 2 ^ 32 ->
  (forall run,
      LOG GetWriteBuffer formatString exprs = Built run ->
      CountPlaceholders formatString = Z.of_nat (length exprs)
      /\ run = WriteLog GetWriteBuffer formatString)
  /\ (CountPlaceholders formatString <> Z.of_nat (length exprs) ->
      exists e, LOG GetWriteBuffer formatString exprs = BuildFailure e)
  /\ (CountPlaceholders formatString <> Z.of_nat (length exprs) ->
      forallb constant_ok exprs = true ->
      LOG GetWriteBuffer formatString exprs
      = BuildFailure (StaticAssertFailed "Number of arguments mismatch"))
  /\ (LOG GetWriteBuffer formatString exprs = Built (WriteLog GetWriteBuffer formatString)
      <-> CountPlaceholders formatString = Z.of_nat (length exprs)
          /\ forallb constant_ok exprs = true
          /\ exprs <> []).
Proof.
  intros Hn. unfold LOG, sizeof_args.
  rewrite unsigned_small by lia.
  destruct (forallb constant_ok exprs) eqn:Hc; cbn [negb].
  - destruct (Z.eqb_spec (CountPlaceholders formatString) (Z.of_nat (length exprs)))
      as [Heq|Hne]; cbn [negb].
    + destruct exprs as [|e exprs].
      * split; [intros run H; discriminate|].
        split; [intros H; contradiction|].
        split; [intros H; contradiction|].
        split; [discriminate|]. intros (_ & _ & H). now contradiction H.
      * split; [intros run H; inversion H; split; [exact Heq|reflexivity]|].
        split; [intros H; contradiction|].
        split; [intros H; contradiction|].
        split; [intros _|reflexivity].
        split; [exact Heq|]. split; [reflexivity|discriminate].
    + split; [intros run H; discriminate|].
      split; [intros _; eauto|].
      split; [reflexivity|].
      split; [discriminate|]. intros (H & _). contradiction.
  - split; [intros run H; discriminate|].
    split; [intros _; eauto|].
    split; [intros _ H; discriminate|].
    split; [discriminate|]. intros (_ & H & _). discriminate.
Qed.

Lemma LOG_checks_arity_at_build_witness :
  LOG zeroed (lit "user % logged in at %")
      [ {| expr_type := T_char_array 6; constant_ok := true |};
        {| expr_type := T_trivial int_t; constant_ok := true |} ]
  = Built (WriteLog zeroed (lit "user % logged in at %"))
  /\ LOG zeroed (lit "user % logged in at %")
         [ {| expr_type := T_char_array 6; constant_ok := true |} ]
     = BuildFailure (StaticAssertFailed "Number of arguments mismatch").
Proof.
  split.
  - refine (proj2 (proj2 (proj2 (proj2 (LOG_checks_arity_at_build zeroed
              (lit "user % logged in at %")
              [ {| expr_type := T_char_array 6; constant_ok := true |};
                {| expr_type := T_trivial int_t; constant_ok := true |} ] _)))) _).
    + vm_compute. reflexivity.
    + split; [vm_compute; reflexivity|]. split; [reflexivity|discriminate].
  - refine (proj1 (proj2 (proj2 (LOG_checks_arity_at_build zeroed
              (lit "user % logged in at %")
              [ {| expr_type := T_char_array 6; constant_ok := true |} ] _))) _ _).
    + vm_compute. reflexivity.
    + vm_compute. discriminate.
    + reflexivity.
Defined.

Lemma zeroed_exact (size : Z) : 0 <= size -> length (zeroed size) = Z.to_nat size.
Proof. intros _. unfold zeroed. apply repeat_length. Qed.



(** ** Serialize, then format: text free of embedded NUL

    For argument lists whose owned strings hold no NUL byte the serializer,
    the size calculator and the formatter agree. *)

(** X12. For a supported argument list (a char array filled by its text,
    as a string literal is) whose owned strings hold no NUL byte,
    [CopyArgs] run on a region with the predicted room moves the cursor by
    exactly [GetArgsSize] bytes, and the chain of [FormatArg] calls at the
    deduced types ([FormatArg<char[N]>] for an array) ends at the same
    cursor, inside the region. *)
Lemma sizes_agree_for_c_text
      (args : list Arg) (mem : list cell) (pos : nat) :
  forallb supported args = true ->
  forallb c_text args = true ->
  payload_width args < 2 ^ 64 ->
  Z.of_nat pos + GetArgsSize args <= Z.of_nat (length mem) ->
  exists mem' end_,
    CopyArgs mem pos args = Some (mem', end_)
    /\ Z.of_nat end_ - Z.of_nat pos = GetArgsSize args
    /\ decode_cursor (map type_of args) mem' pos = Some end_
    /\ (end_ <= length mem')%nat.
Proof.
  intros Hs Hc Hw Hroom.
  rewrite (GetArgsSize_sum args Hw) in *.
  pose proof (payload_length_width args Hs Hc) as Hlen.
  destruct (region_frame mem pos (length (payload args)) ltac:(lia))
    as (pre & hole & post & -> & <- & Hhole).
  exists (pre ++ map Raw (payload args) ++ post), (length pre + length (payload args))%nat.
  rewrite (CopyArgs_frame args pre hole post Hs Hhole).
  rewrite (decode_cursor_frame args pre post Hs).
  repeat split; try lia.
  rewrite !length_app, length_map. lia.
Qed.

Lemma sizes_agree_for_c_text_witness :
  exists mem' end_,
    CopyArgs (zeroed 12) 1 [Literal "alice"; Int 1425] = Some (mem', end_)
    /\ Z.of_nat end_ - Z.of_nat 1 = GetArgsSize [Literal "alice"; Int 1425]
    /\ decode_cursor (map type_of [Literal "alice"; Int 1425]) mem' 1 = Some end_
    /\ (end_ <= length mem')%nat.
Proof.
  refine (sizes_agree_for_c_text [Literal "alice"; Int 1425] (zeroed 12) 1 _ _ _ _).
  - vm_compute. reflexivity.
  - vm_compute. reflexivity.
  - vm_compute. reflexivity.
  - vm_compute. discriminate.
Defined.

(** C1 (amended). For every supported argument list (trivially-copyable
    values, [const char*] text, string literals and other char arrays
    filled by their text, owned strings) whose owned strings hold no NUL
    byte, serializing the arguments with [CopyArgs] and then formatting
    the payload with [FormatArgs<Args...>] at the deduced types writes the
    text that formatting the same arguments in place writes: the arguments
    substituted left to right at the ['%'] markers of the format string,
    then the line terminator.  ([LOG] lets a call through with as many
    arguments as markers; the region has room for the payload.) *)
Theorem serialize_then_format_c_text
      (args : list Arg) (format : cstring) (mem : list cell) (pos : nat) (out : ostream) :
  forallb supported args = true ->
  forallb c_text args = true ->
  (length args <= placeholder_count format)%nat ->
  (pos + length (payload args) <= length mem)%nat ->
  exists mem' end_,
    CopyArgs mem pos args = Some (mem', end_)
    /\ FormatArgs (map type_of args) out format mem' pos
       = Some (out ++ direct_format format args).
Proof.
  intros Hs Hc Hn Hroom.
  destruct (region_frame mem pos (length (payload args)) Hroom)
    as (pre & hole & post & -> & <- & Hhole).
  exists (pre ++ map Raw (payload args) ++ post), (length pre + length (payload args))%nat.
  split; [now apply CopyArgs_frame|].
  rewrite (FormatArgs_frame args pre post out format Hs Hn).
  unfold direct_format. now rewrite (decoded_c_text args Hc).
Qed.

Lemma serialize_then_format_c_text_witness :
  exists mem' end_,
    CopyArgs (zeroed 16) 1 [Literal "alice"; Int 1425; CharPtr (lit "bob")]
    = Some (mem', end_)
    /\ FormatArgs (map type_of [Literal "alice"; Int 1425; CharPtr (lit "bob")]) []
                  (lit "user % logged in at % from %") mem' 1
       = Some ([] ++ direct_format (lit "user % logged in at % from %")
                                   [Literal "alice"; Int 1425; CharPtr (lit "bob")]).
Proof.
  refine (serialize_then_format_c_text
            [Literal "alice"; Int 1425; CharPtr (lit "bob")]
            (lit "user % logged in at % from %") (zeroed 16) 1 [] _ _ _ _).
  - vm_compute. reflexivity.
  - vm_compute. reflexivity.
  - vm_compute. lia.
  - vm_compute. lia.
Defined.

Lemma WriteLog_passes_for_c_text
      (GetWriteBuffer : Z -> list cell) (formatString : cstring) (args : list Arg)
      (sink : ostream) :
  (forall size, 0 <= size -> length (GetWriteBuffer size) = Z.to_nat size) ->
  args <> [] ->
  forallb supported args = true ->
  forallb c_text args = true ->
  payload_width args + Z.of_nat sizeof_Header < 2 ^ 31 ->
  (length args <= placeholder_count formatString)%nat ->
  exists data,
    WriteLog GetWriteBuffer formatString args = Written data
    /\ dispatch data sink = Some (sink ++ direct_format formatString args).
Proof.
  intros Hgwb _ Hs Hc Hfit Hn.
  destruct (WriteLog_closed_form GetWriteBuffer formatString args Hgwb Hs Hfit)
    as (post & Hlen & Hw).
  pose proof (payload_length_width args Hs Hc) as Hpl.
  pose proof (payload_width_nonneg args) as Hnn.
  rewrite (GetArgsSize_sum args) in Hw at 1 by (unfold sizeof_Header in Hfit; lia).
  rewrite Hpl, Z.eqb_refl in Hw.
  eexists. split; [exact Hw|].
  unfold dispatch. rewrite read_Header_cells.
  2:{ simpl. rewrite GetArgsSize_wraps. apply size_t_range. }
  cbn [Formatter FormatString].
  rewrite <- (Header_cells_length
                {| ArgsSize := GetArgsSize args; FormatString := formatString;
                   Formatter := map type_of args |}).
  rewrite (FormatArgs_frame args _ post sink formatString Hs Hn).
  unfold direct_format. now rewrite (decoded_c_text args Hc).
Qed.

(** [WriteLog] returns only past its assertion. *)
Lemma WriteLog_returns_past_assertion
      (GetWriteBuffer : Z -> list cell) (formatString : cstring) (args : list Arg)
      (data : list cell) :
  WriteLog GetWriteBuffer formatString args = Written data ->
  exists region end_,
    CopyArgs region sizeof_Header args = Some (data, end_)
    /\ size_t (Z.of_nat end_ - Z.of_nat sizeof_Header) = GetArgsSize args.
Proof.
  unfold WriteLog.
  destruct (store_Header _ _) as [data1|]; [|discriminate].
  destruct (CopyArgs data1 sizeof_Header args) as [[data2 end_]|] eqn:Ec; [|discriminate].
  destruct (Z.eqb_spec (size_t (Z.of_nat end_ - Z.of_nat sizeof_Header)) (GetArgsSize args))
    as [Heq|Hne]; [|discriminate].
  intros H. inversion H; subst data2. now exists data1, end_.
Qed.

(** ** An owned string with a NUL inside

    [GetArgSize(const std::string&)] counts [s.length() + 1] bytes;
    [CopyArg(char*, const std::string&)] copies [s.c_str()] with [strcpy],
    which stops at the first NUL.  For [std::string("a\0b", 3)] the two
    disagree. *)

(** C1, as stated, fails at [LOG("%", std::string("a\0b", 3))]: the
    argument is supported, the call has one marker for its one argument
    and the region has room, yet the line serialized and then formatted
    is ["a"], while formatting the argument in place writes the three
    bytes of the string. *)
Lemma serialize_then_format_embedded_NUL :
  forallb supported [StdString a_nul_b] = true
  /\ length [StdString a_nul_b] = placeholder_count (lit "%")
  /\ (0 + length (payload [StdString a_nul_b]) <= length (zeroed 4))%nat
  /\ direct_format (lit "%") [StdString a_nul_b] = a_nul_b ++ [LF]
  /\ ~ (exists mem' end_,
          CopyArgs (zeroed 4) 0 [StdString a_nul_b] = Some (mem', end_)
          /\ FormatArgs (map type_of [StdString a_nul_b]) [] (lit "%") mem' 0
             = Some ([] ++ direct_format (lit "%") [StdString a_nul_b])).
Proof.
  split; [reflexivity|]. split; [reflexivity|].
  split; [vm_compute; lia|]. split; [reflexivity|].
  intros (mem' & end_ & Hc & Hf).
  vm_compute in Hc. inversion Hc; subst mem' end_.
  vm_compute in Hf. discriminate.
Qed.

(** C2. At the one argument [std::string("a\0b", 3)], [GetArgsSize]
    predicts 4 bytes, [CopyArgs] moves the cursor by 2 and the chain of
    [FormatArg] calls moves it by 2: two bytes of the 4-byte payload are
    left over. *)
Theorem embedded_NUL_leaves_bytes_over :
  GetArgsSize [StdString a_nul_b] = 4
  /\ exists mem',
       CopyArgs (zeroed 4) 0 [StdString a_nul_b] = Some (mem', 2%nat)
       /\ decode_cursor [T_std_string] mem' 0 = Some 2%nat
       /\ length mem' = 4%nat.
Proof.
  split; [reflexivity|].
  eexists. split; [vm_compute; reflexivity|].
  split; vm_compute; reflexivity.
Qed.

(** C3. At [WriteLog("%", std::string("a\0b", 3))] the assertion
    [end - argsBuffer == argsSize] fails (2 against 4) and the call stops
    there. *)
Theorem embedded_NUL_fails_assertion :
  exists data,
    WriteLog zeroed (lit "%") [StdString a_nul_b] = AssertionFailed data
    /\ GetArgsSize [StdString a_nul_b] = 4
    /\ CopyArgs (firstn sizeof_Header data ++ skipn sizeof_Header (zeroed 28))
                sizeof_Header [StdString a_nul_b]
       = Some (data, (sizeof_Header + 2)%nat).
Proof.
  eexists. split; [vm_compute; reflexivity|].
  split; vm_compute; reflexivity.
Qed.

(** ** Bounds of the serializer

    [CopyArg] and [CopyArgs] check no bound themselves: whether a call
    stays inside the region is decided by the room behind the cursor. *)













(** ** The formatter beyond the claims *)

(** X4. The decoder follows the encoder for every supported argument
    list (a char array filled by its text, as a string literal is), also
    one with a NUL inside a [std::string]: the chain of [FormatArg] calls
    at the deduced types ends at the cursor [CopyArgs] returned, and the
    line [FormatArgs] writes substitutes, marker by marker, each
    argument's printed form, an owned string being cut at its first NUL. *)
Theorem decoder_follows_encoder
        (args : list Arg) (format : cstring) (mem : list cell) (pos : nat) (out : ostream) :
  forallb supported args = true ->
  (length args <= placeholder_count format)%nat ->
  (pos + length (payload args) <= length mem)%nat ->
  exists mem' end_,
    CopyArgs mem pos args = Some (mem', end_)
    /\ decode_cursor (map type_of args) mem' pos = Some end_
    /\ FormatArgs (map type_of args) out format mem' pos
       = Some (out ++ substitute (text format) (map decoded args) ++ [LF]).
Proof.
  intros Hs Hn Hroom.
  destruct (region_frame mem pos _ Hroom) as (pre & hole & post & -> & <- & Hhole).
  exists (pre ++ map Raw (payload args) ++ post), (length pre + length (payload args))%nat.
  split; [now apply CopyArgs_frame|].
  split; [now apply decode_cursor_frame|].
  now apply FormatArgs_frame.
Qed.

Lemma decoder_follows_encoder_witness :
  exists mem' end_,
    CopyArgs (zeroed 6) 0 [StdString a_nul_b; Literal "xyz"] = Some (mem', end_)
    /\ decode_cursor (map type_of [StdString a_nul_b; Literal "xyz"]) mem' 0 = Some end_
    /\ FormatArgs (map type_of [StdString a_nul_b; Literal "xyz"]) [] (lit "% and %") mem' 0
       = Some ([] ++ substitute (text (lit "% and %"))
                                (map decoded [StdString a_nul_b; Literal "xyz"]) ++ [LF]).
Proof.
  refine (decoder_follows_encoder [StdString a_nul_b; Literal "xyz"] (lit "% and %")
                                  (zeroed 6) 0 [] _ _ _).
  - vm_compute. reflexivity.
  - vm_compute. lia.
  - vm_compute. lia.
Defined.

(** X5. [FormatArgs] comes to an end only on a format string with at
    least as many markers as the formatter has argument types: with fewer,
    [strstr] returns the null pointer on the way and the call is
    undefined. *)
Theorem FormatArgs_needs_a_marker_per_argument (Args : list ArgType) :
  forall s format mem buffer out,
    FormatArgs Args s format mem buffer = Some out ->
    (length Args <= placeholder_count format)%nat.
Proof.
  induction Args as [|A Args IH]; intros s format mem buffer out H.
  - simpl. lia.
  - cbn [FormatArgs] in H.
    destruct (libc.strstr format PERCENT) as [k|] eqn:Ek; [|discriminate].
    destruct (FormatArg A (ostream_write s format k) mem buffer) as [[s2 b2]|];
      [|discriminate].
    apply IH in H. rewrite (placeholder_count_after _ _ Ek). simpl. lia.
Qed.

Lemma FormatArgs_needs_a_marker_per_argument_witness :
  (length [T_char_ptr; T_trivial int_t] <= placeholder_count (lit "% and %"))%nat.
Proof.
  refine (FormatArgs_needs_a_marker_per_argument [T_char_ptr; T_trivial int_t]
            [] (lit "% and %")
            (map Raw (lit "a" ++ [NUL] ++ le_split 4 5)) 0
            (lit "a and 5" ++ [LF]) _).
  vm_compute. reflexivity.
Defined.

Lemma FormatArg_appends (A : ArgType) (s : ostream) (mem : list cell) (pos : nat) :
  FormatArg A s mem pos
  = option_map (fun r => (s ++ fst r, snd r)) (FormatArg A [] mem pos).
Proof.
  destruct A as [T| | |N]; simpl; unfold FormatArg_cstr, FormatArg_array.
  - destruct (load mem pos (sizeof T)); reflexivity.
  - destruct (strlen_at mem pos) as [l|]; [|reflexivity].
    destruct (load mem pos l); reflexivity.
  - destruct (strlen_at mem pos) as [l|]; [|reflexivity].
    destruct (load mem pos l); reflexivity.
  - destruct (strlen_at mem pos) as [l|]; [|reflexivity].
    destruct (load mem pos l); reflexivity.
Qed.

Lemma FormatArgs_appends_to (Args : list ArgType) :
  forall s format mem buffer,
    FormatArgs Args s format mem buffer
    = option_map (app s) (FormatArgs Args [] format mem buffer).
Proof.
  induction Args as [|A Args IH]; intros s format mem buffer.
  - cbn [FormatArgs option_map].
    unfold ostream_endl, ostream_put_cstr, ostream_write. cbn [app].
    now rewrite app_assoc.
  - cbn [FormatArgs].
    destruct (libc.strstr format PERCENT) as [k|]; [|reflexivity].
    rewrite (FormatArg_appends A (ostream_write s format k)).
    rewrite (FormatArg_appends A (ostream_write [] format k)).
    destruct (FormatArg A [] mem buffer) as [[o e]|]; [|reflexivity].
    cbn [option_map fst snd].
    rewrite (IH (ostream_write s format k ++ o)).
    rewrite (IH (ostream_write [] format k ++ o)).
    destruct (FormatArgs Args [] (skipn (k + 1) format) mem e) as [line|];
      [|reflexivity].
    cbn [option_map]. unfold ostream_write. cbn [app].
    now rewrite <- !app_assoc.
Qed.

Lemma FormatArgs_line_ends (Args : list ArgType) :
  forall format mem buffer line,
    FormatArgs Args [] format mem buffer = Some line ->
    exists body, line = body ++ [LF].
Proof.
  induction Args as [|A Args IH]; intros format mem buffer line H.
  - simpl in H. inversion H. unfold ostream_endl. eauto.
  - cbn [FormatArgs] in H.
    destruct (libc.strstr format PERCENT) as [k|]; [|discriminate].
    destruct (FormatArg A (ostream_write [] format k) mem buffer) as [[s2 b2]|];
      [|discriminate].
    rewrite FormatArgs_appends_to in H.
    destruct (FormatArgs Args [] (skipn (k + 1) format) mem b2) as [l|] eqn:E;
      [|discriminate].
    destruct (IH _ _ _ _ E) as (body & ->).
    inversion H. exists (s2 ++ body). now rewrite app_assoc.
Qed.

(** X6. [FormatArgs] only appends to the stream: what it writes does not
    depend on what the stream already holds, the earlier contents stay in
    front unchanged, and the text appended ends with the line terminator. *)
Theorem FormatArgs_appends_one_line
        (Args : list ArgType) (s : ostream) (format : cstring)
        (mem : list cell) (buffer : nat) :
  FormatArgs Args s format mem buffer
  = option_map (app s) (FormatArgs Args [] format mem buffer)
  /\ (forall out,
         FormatArgs Args s format mem buffer = Some out ->
         exists body, out = s ++ body ++ [LF]).
Proof.
  split; [apply FormatArgs_appends_to|].
  intros out H. rewrite FormatArgs_appends_to in H.
  destruct (FormatArgs Args [] format mem buffer) as [line|] eqn:E; [|discriminate].
  destruct (FormatArgs_line_ends _ _ _ _ _ E) as (body & ->).
  inversion H. now exists body.
Qed.

Lemma FormatArgs_appends_one_line_witness :
  exists body,
    lit "earlier line" ++ LF :: lit "a and 5" ++ [LF]
    = (lit "earlier line" ++ [LF]) ++ body ++ [LF].
Proof.
  refine (proj2 (FormatArgs_appends_one_line [T_char_ptr; T_trivial int_t]
                   (lit "earlier line" ++ [LF]) (lit "% and %")
                   (map Raw (lit "a" ++ [NUL] ++ le_split 4 5)) 0) _ _).
  vm_compute. reflexivity.
Defined.





(** ** WriteLog beyond the claims *)









(** ** The format string beyond the claims *)

(** X10. Nothing behind a NUL inside the format string counts: the
    compile-time count of [CountPlaceholders], the run-time search of
    [strstr] and the text the terminator overload prints are those of the
    part in front of the NUL. *)
Theorem format_ends_at_first_NUL (front behind : list byte) (s : ostream) :
  nul_free front = true ->
  CountPlaceholders (front ++ NUL :: behind) = CountPlaceholders front
  /\ libc.strstr (front ++ NUL :: behind) PERCENT = libc.strstr front PERCENT
  /\ FormatArgs [] s (front ++ NUL :: behind) [] 0 = Some (s ++ front ++ [LF]).
Proof.
  intros Hf. repeat split.
  - induction front as [|c front IH]; simpl; [reflexivity|].
    simpl in Hf. apply andb_true_iff in Hf. destruct Hf as [Hc Hf].
    apply negb_true_iff in Hc. rewrite Hc. now rewrite (IH Hf).
  - induction front as [|c front IH]; simpl; [reflexivity|].
    simpl in Hf. apply andb_true_iff in Hf. destruct Hf as [Hc Hf].
    apply negb_true_iff in Hc. rewrite Hc. now rewrite (IH Hf).
  - simpl. unfold ostream_endl. rewrite ostream_put_cstr_text.
    assert (Ht : text (front ++ NUL :: behind) = front).
    { clear s. induction front as [|c front IH]; simpl; [reflexivity|].
      simpl in Hf. apply andb_true_iff in Hf. destruct Hf as [Hc Hf].
      apply negb_true_iff in Hc. rewrite Hc. now rewrite (IH Hf). }
    rewrite Ht. now rewrite <- app_assoc.
Qed.

Lemma format_ends_at_first_NUL_witness :
  CountPlaceholders (lit "rate %" ++ NUL :: lit "% %") = CountPlaceholders (lit "rate %").
Proof.
  refine (proj1 (format_ends_at_first_NUL (lit "rate %") (lit "% %") [] _)).
  vm_compute. reflexivity.
Defined.

(** X11. The count checked at build time and the search done at run time
    agree: [CountPlaceholders] is 0 exactly when [strstr] finds no
    placeholder, and the count never exceeds the length of the text. *)
Theorem CountPlaceholders_agrees_with_strstr (format : cstring) :
  addressable format ->
  (CountPlaceholders format = 0 <-> libc.strstr format PERCENT = None)
  /\ 0 <= CountPlaceholders format <= Z.of_nat (libc.strlen format).
Proof.
  intros Ha. rewrite (CountPlaceholders_counts format Ha). split.
  - rewrite strstr_None. lia.
  - rewrite strlen_text. unfold placeholder_count.
    pose proof (count_occ_bound byte_eq_dec PERCENT (text format)). lia.
Qed.

Lemma CountPlaceholders_agrees_with_strstr_witness :
  0 <= CountPlaceholders (lit "100%") <= Z.of_nat (libc.strlen (lit "100%")).
Proof.
  refine (proj2 (CountPlaceholders_agrees_with_strstr (lit "100%") _)).
  vm_compute. reflexivity.
Defined.

(** ** Composition *)

Lemma CopyArgs_app (front : list Arg) :
  forall mem pos behind,
    CopyArgs mem pos (front ++ behind)
    = match CopyArgs mem pos front with
      | Some (mem', pos') => CopyArgs mem' pos' behind
      | None => None
      end.
Proof.
  induction front as [|a front IH]; intros mem pos behind; [reflexivity|].
  cbn [app CopyArgs].
  destruct (CopyArg mem pos a) as [[m p]|]; [apply IH|reflexivity].
Qed.

Lemma GetArgsSize_app (front behind : list Arg) :
  GetArgsSize (front ++ behind) = size_t (GetArgsSize front + GetArgsSize behind).
Proof.
  rewrite !GetArgsSize_wraps, size_t_add_l, size_t_add_r. f_equal.
  unfold payload_width. induction front as [|a front IH]; simpl; [reflexivity|].
  rewrite IH. lia.
Qed.

Lemma decode_cursor_app (front : list ArgType) :
  forall mem pos behind,
    decode_cursor (front ++ behind) mem pos
    = match decode_cursor front mem pos with
      | Some pos' => decode_cursor behind mem pos'
      | None => None
      end.
Proof.
  induction front as [|A front IH]; intros mem pos behind; [reflexivity|].
  cbn [app decode_cursor].
  destruct (FormatArg A [] mem pos) as [[o p]|]; [apply IH|reflexivity].
Qed.

(** X13. The three passes over an argument list work argument by
    argument, so they split over a list put together from two: the size
    is the [size_t] sum of the two sizes, serializing the whole list is
    serializing the front part and going on with the rest at the cursor
    and region that leaves, and the decode chain likewise. *)
Theorem passes_split_over_append
        (front behind : list Arg) (mem : list cell) (pos : nat) :
  GetArgsSize (front ++ behind) = size_t (GetArgsSize front + GetArgsSize behind)
  /\ CopyArgs mem pos (front ++ behind)
     = match CopyArgs mem pos front with
       | Some (mem', pos') => CopyArgs mem' pos' behind
       | None => None
       end
  /\ decode_cursor (map type_of (front ++ behind)) mem pos
     = match decode_cursor (map type_of front) mem pos with
       | Some pos' => decode_cursor (map type_of behind) mem pos'
       | None => None
       end.
Proof.
  split; [apply GetArgsSize_app|]. split; [apply CopyArgs_app|].
  rewrite map_app. apply decode_cursor_app.
Qed.

(** ** From the call site to the line *)

(** X14. A [LOG] line with at least one argument, whose argument
    expressions may stand in a constant expression and whose format string
    has as many markers as the line has arguments, builds; run on
    supported arguments whose owned strings hold no NUL, with a region of
    the requested size, it returns, and the formatter named in the header
    (the instantiation at the deduced types, the array type for a char
    array or literal), applied to the format string and the payload
    behind the header, writes the arguments formatted in place. *)
Theorem LOG_line_is_formatted
        (GetWriteBuffer : Z -> list cell) (formatString : cstring)
        (exprs : list ArgExpr) (args : list Arg) (sink : ostream) :
  (forall size, 0 <= size -> length (GetWriteBuffer size) = Z.to_nat size) ->
  args <> [] ->
  map expr_type exprs = map type_of args ->
  forallb constant_ok exprs = true ->
  forallb supported args = true ->
  forallb c_text args = true ->
  payload_width args + Z.of_nat sizeof_Header < 2 ^ 31 ->
  Z.of_nat (length args) < 2 ^ 32 ->
  CountPlaceholders formatString = Z.of_nat (length args) ->
  exists run data,
    LOG GetWriteBuffer formatString exprs = Built run
    /\ run args = Written data
    /\ FormatArgs (map type_of args) sink formatString data sizeof_Header
       = Some (sink ++ direct_format formatString args).
Proof.
  intros Hgwb Hne Hty Hconst Hs Hc Hfit Hlen Hcount.
  assert (Hn : (length args <= placeholder_count formatString)%nat).
  { rewrite CountPlaceholders_wraps in Hcount. unfold size_t in Hcount.
    pose proof (Z.mod_le (Z.of_nat (placeholder_count formatString)) (2 ^ 64)
                         ltac:(lia) ltac:(lia)). lia. }
  assert (Hle : length exprs = length args).
  { rewrite <- (length_map expr_type), Hty. apply length_map. }
  destruct (WriteLog_closed_form GetWriteBuffer formatString args Hgwb Hs Hfit)
    as (post & _ & Hw).
  pose proof (payload_width_nonneg args) as Hnn.
  rewrite (GetArgsSize_sum args) in Hw at 1 by (unfold sizeof_Header in Hfit; lia).
  rewrite (payload_length_width args Hs Hc), Z.eqb_refl in Hw.
  exists (WriteLog GetWriteBuffer formatString). eexists.
  split; [|split; [exact Hw|]].
  - unfold LOG, sizeof_args. rewrite Hconst, Hle, unsigned_small by lia.
    rewrite Hcount, Z.eqb_refl. cbn [negb].
    destruct exprs as [|e exprs]; [|reflexivity].
    destruct args; [contradiction|discriminate].
  - rewrite <- (Header_cells_length
                  {| ArgsSize := GetArgsSize args; FormatString := formatString;
                     Formatter := map type_of args |}).
    rewrite (FormatArgs_frame args _ post sink formatString Hs Hn).
    unfold direct_format. now rewrite (decoded_c_text args Hc).
Qed.

Lemma LOG_line_is_formatted_witness :
  exists run data,
    LOG zeroed (lit "user % logged in at %")
        [ {| expr_type := T_char_array 6; constant_ok := true |};
          {| expr_type := T_trivial int_t; constant_ok := true |} ] = Built run
    /\ run [Literal "alice"; Int 1425] = Written data
    /\ FormatArgs (map type_of [Literal "alice"; Int 1425]) []
                  (lit "user % logged in at %") data sizeof_Header
       = Some ([] ++ direct_format (lit "user % logged in at %")
                                   [Literal "alice"; Int 1425]).
Proof.
  refine (LOG_line_is_formatted zeroed (lit "user % logged in at %")
            [ {| expr_type := T_char_array 6; constant_ok := true |};
              {| expr_type := T_trivial int_t; constant_ok := true |} ]
            [Literal "alice"; Int 1425] [] zeroed_exact _ _ _ _ _ _ _ _).
  - discriminate.
  - reflexivity.
  - reflexivity.
  - vm_compute. reflexivity.
  - vm_compute. reflexivity.
  - vm_compute. reflexivity.
  - vm_compute. reflexivity.
  - vm_compute. reflexivity.
Defined.

(** ** A char array with room behind its text *)

(** X15. A char array is copied as text and decoded by its size: [CopyArg]
    writes its text and the terminator and moves the cursor by
    [strlen + 1], while [FormatArg<char[N]>] prints the same text and
    moves the cursor by [N].  The two cursors agree only for an array
    filled by its text, as a string literal is; otherwise the decoder
    starts the next argument [N - strlen - 1] bytes too far. *)
Theorem char_array_decoded_by_its_size
        (arr : list byte) (pre hole post : list cell) (out : ostream) :
  length hole = (libc.strlen arr + 1)%nat ->
  exists mem',
    CopyArg (pre ++ hole ++ post) (length pre) (CharArray arr)
    = Some (mem', (length pre + libc.strlen arr + 1)%nat)
    /\ FormatArg (type_of (CharArray arr)) out mem' (length pre)
       = Some (out ++ text arr, (length pre + length arr)%nat)
    /\ ((length pre + length arr = length pre + libc.strlen arr + 1)%nat
        <-> supported (CharArray arr) = true).
Proof.
  intros Hh.
  assert (Hl : length hole = length (map Raw (text arr ++ [NUL]))).
  { rewrite length_map, length_app, <- strlen_text. simpl. lia. }
  exists (pre ++ map Raw (text arr ++ [NUL]) ++ post). split; [|split].
  - simpl. unfold CopyArg_cstr, strcpy. now rewrite (store_frame pre hole post _ Hl).
  - pose proof (FormatArg_cstr_frame out pre post arr) as H.
    simpl. unfold FormatArg_cstr in H. unfold FormatArg_array.
    destruct (strlen_at _ _) as [l|]; [|discriminate].
    destruct (load _ _ l) as [bytes|]; [|discriminate].
    inversion H as [[H1 H2]]. now rewrite H1.
  - simpl. rewrite Nat.eqb_eq. lia.
Qed.

Lemma char_array_decoded_by_its_size_witness :
  exists mem',
    CopyArg (zeroed 6) 0 (CharArray ["a"%byte; x00; x00; x00])
    = Some (mem', 2%nat)
    /\ FormatArg (T_char_array 4) [] mem' 0 = Some (lit "a", 4%nat).
Proof.
  destruct (char_array_decoded_by_its_size ["a"%byte; x00; x00; x00]
              [] (zeroed 2) (zeroed 4) []) as (mem' & Hc & Hf & _).
  - vm_compute. reflexivity.
  - exists mem'. split; [exact Hc|exact Hf].
Defined.
